(** * CLogger (src/Setup/Logger.cpp): a shallow embedding and its properties

    The logger is two functions.  [CLogger::getCurrentDateTime] formats the
    local wall-clock time with [strftime] into an 80-byte stack buffer, and
    [CLogger::Log] narrows the wide message, opens the target file with a
    [std::ofstream] in append mode, inserts one record and closes the stream.

    Everything the two functions do goes through the C and C++ run-time
    library, so the embedding has three layers:
    - the data of the program: C strings, wide characters and their
      narrowing, [struct tm];
    - the library calls the source makes ([strftime], the [std::string]
      constructors, [std::ofstream] construction, insertion and [close]),
      modelled after the C and C++ standards over a small file system;
    - the two functions of Logger.cpp, written call by call as the source
      has them.

    A file's content is the character sequence of the text stream, that is,
    what the program wrote and what a text-mode read returns. *)

From Stdlib Require Import ZArith NArith List Ascii String Bool Lia.
From stdpp Require Import gmap.
Import ListNotations.

Local Open Scope Z_scope.

(** ** Characters and C strings *)

(** A narrow string is a sequence of [char]; its bytes are [ascii] values. *)
Abbreviation bytes := (list ascii).

(** A [wchar_t] code unit. *)
Abbreviation wchar := N.

Definition NUL : ascii := "000"%char.
Definition TAB : ascii := "009"%char.
Definition NL : ascii := "010"%char.

Definition lit (s : string) : bytes := list_ascii_of_string s.

(** [std::string(const char* )] and [std::wstring(const wchar_t* )]: the
    characters before the first terminator.  The argument lists what the
    pointer points at; a list that ends without a terminator is read to its
    end. *)
Fixpoint c_str (p : bytes) : bytes :=
  match p with
  | [] => []
  | c :: q => if Ascii.eqb c NUL then [] else c :: c_str q
  end.

Fixpoint wc_str (p : list wchar) : list wchar :=
  match p with
  | [] => []
  | c :: q => if (c =? 0)%N then [] else c :: wc_str q
  end.

(** The conversion [wchar_t -> char] that [std::string(ws.begin(), ws.end())]
    applies to every element: the low eight bits are kept. *)
Definition narrow_char (c : wchar) : ascii := ascii_of_N (c mod 256).

(** [std::string strLogMsg(ws.begin(), ws.end())]: one [char] per element of
    the range. *)
Definition string_of_range (ws : list wchar) : bytes := map narrow_char ws.

(** ** Broken-down time and [strftime] *)

(** [struct tm]; every member is an [int]. *)
Record tm := mk_tm {
  tm_sec : Z;
  tm_min : Z;
  tm_hour : Z;
  tm_mday : Z;
  tm_mon : Z;
  tm_year : Z;
  tm_wday : Z;
  tm_yday : Z;
  tm_isdst : Z
}.

(** The ranges the C standard gives for the members [localtime] fills in
    (C11 7.27.1), the year being an [int] that stays an [int] once 1900 is
    added. *)
Definition tm_valid (t : tm) : Prop :=
  0 <= tm_sec t <= 60 /\
  0 <= tm_min t <= 59 /\
  0 <= tm_hour t <= 23 /\
  1 <= tm_mday t <= 31 /\
  0 <= tm_mon t <= 11 /\
  -2147483648 <= tm_year t + 1900 <= 2147483647.

Definition digit (n : N) : ascii := ascii_of_N (48 + n mod 10).

(** Decimal digits of a natural number, most significant first.  Each step
    emits one digit; the fuel is the binary length of the number, which is
    never less than its decimal length. *)
Fixpoint dec_digits (fuel : nat) (n : N) (acc : bytes) : bytes :=
  match fuel with
  | O => acc
  | S fuel' =>
      let acc' := digit (n mod 10) :: acc in
      if (n / 10 =? 0)%N then acc' else dec_digits fuel' (n / 10) acc'
  end.

Definition dec_of_N (n : N) : bytes := dec_digits (S (N.to_nat (N.log2 n))) n [].

(** [%Y]: the year as a decimal number, without padding. *)
Definition dec_of_Z (z : Z) : bytes :=
  if z <? 0 then "-"%char :: dec_of_N (Z.abs_N z) else dec_of_N (Z.to_N z).

(** [%d], [%m], [%H], [%M] and [%S]: the number in decimal, with a leading
    zero when it has a single digit.  The values of the members' ranges
    print as two digits; a value outside them prints in full. *)
Definition dec2 (z : Z) : bytes :=
  if (0 <=? z) && (z <? 10) then "0"%char :: dec_of_Z z else dec_of_Z z.

(** Arithmetic on [int]: the sum is reduced to 32 bits. *)
Definition int_wrap (z : Z) : Z :=
  (z + 2147483648) mod 4294967296 - 2147483648.

(** The part of the current locale [strftime] consults: its time
    representation, which is what [%X] prints. *)
Record locale := mk_locale {
  time_rep : tm -> bytes
}.

(** The "C" locale, in effect at program start-up: [%X] is [%H:%M:%S]. *)
Definition C_locale : locale :=
  {| time_rep := fun t =>
       dec2 (tm_hour t) ++ lit ":" ++ dec2 (tm_min t) ++ lit ":" ++ dec2 (tm_sec t) |}.

(** One conversion specifier.  The specifiers of the source's format and
    of the "C" time representation are modelled; any other prints nothing. *)
Definition conversion (loc : locale) (spec : ascii) (t : tm) : bytes :=
  if Ascii.eqb spec "d" then dec2 (tm_mday t)
  else if Ascii.eqb spec "m" then dec2 (int_wrap (tm_mon t + 1))
  else if Ascii.eqb spec "Y" then dec_of_Z (int_wrap (tm_year t + 1900))
  else if Ascii.eqb spec "X" then time_rep loc t
  else if Ascii.eqb spec "H" then dec2 (tm_hour t)
  else if Ascii.eqb spec "M" then dec2 (tm_min t)
  else if Ascii.eqb spec "S" then dec2 (tm_sec t)
  else if Ascii.eqb spec "%" then ["%"%char]
  else [].

(** The characters a format expands to: ordinary characters are copied,
    [%c] is replaced by its conversion. *)
Fixpoint expand (loc : locale) (fmt : bytes) (t : tm) : bytes :=
  match fmt with
  | [] => []
  | c :: rest =>
      if Ascii.eqb c "%" then
        match rest with
        | [] => []
        | spec :: rest' => conversion loc spec t ++ expand loc rest' t
        end
      else c :: expand loc rest t
  end.

(** ** The environment of one call *)

(** What a call reads and does not change: the broken-down local time that
    [*localtime(&now)] yields for [now = time(0)], the current locale, the
    bytes the uninitialised [char buf[80]] happens to hold, the bytes the
    library leaves in the array when it gives up (the C standard calls them
    indeterminate), and the memory that lies behind the array. *)
Record env := mk_env {
  clock : tm;
  lc_time : locale;
  stack_junk : bytes;
  indeterminate : bytes;
  stack_beyond : bytes
}.

(** [strftime(buf, maxsize, fmt, &t)].  When the expansion and its
    terminator fit in [maxsize] characters they are stored at the start of
    the array and the number of characters, terminator excluded, is
    returned.  Otherwise 0 is returned and the content of the array is
    indeterminate. *)
Definition strftime (e : env) (buf : bytes) (maxsize : nat)
    (fmt : bytes) (t : tm) : nat * bytes :=
  let s := expand (lc_time e) fmt t in
  if (length s <? maxsize)%nat
  then (length s, s ++ NUL :: skipn (S (length s)) buf)
  else (O, indeterminate e).

(** ** [CLogger::getCurrentDateTime] *)

(** The result of [strftime] is not looked at.  [std::string(buf)] reads
    from the start of the array to the first NUL, into the memory behind
    the array when the array holds none. *)
Definition getCurrentDateTime (e : env) : bytes :=
  let tstruct := clock e in
  let buf := stack_junk e in
  let '(_, buf) := strftime e buf 80 (lit "[%d-%m-%Y %X]") tstruct in
  c_str (buf ++ stack_beyond e).

(** ** The file system *)

(** The operating system's side of [std::ofstream]: the files and
    directories by name, opening for output and writing at the end of a
    file.  A path is the name as given.  The model knows a file by the
    spelling of its path only: it does not tell which other spellings (case,
    the other separator, dot segments, links) lead to the same file, so the
    properties below speak of a file through the path of the call. *)

Abbreviation path := (list wchar).

Inductive node :=
| Dir
| File (readonly : bool) (content : bytes).

(** The nodes by path, the number of characters the device still has
    room for, and the names under which the operating system lets the
    caller create a file (its permissions and its rules for names). *)
Record fsys := mk_fsys {
  nodes : gmap path node;
  free : nat;
  permits : path -> bool
}.

Definition is_sep (c : wchar) : bool := ((c =? 92) || (c =? 47))%N.

(** The directory part of a path: what precedes its last separator.
    [None] for a bare file name, which lives in the current directory;
    [Some []] for a name directly under the root.  What follows the last
    separator is the file name, which is empty for a path that ends in a
    separator and for the empty path. *)
Fixpoint parent (p : path) : option path :=
  match p with
  | [] => None
  | c :: q =>
      match parent q with
      | Some d => Some (c :: d)
      | None => if is_sep c then Some [] else None
      end
  end.

Definition dir_exists (s : fsys) (d : path) : bool :=
  match d with
  | [] => true
  | _ => match nodes s !! d with
         | Some Dir => true
         | _ => false
         end
  end.

(** The last component of a path: what follows its last separator. *)
Fixpoint file_name (p : path) : path :=
  match p with
  | [] => []
  | c :: q =>
      match parent q with
      | Some _ => file_name q
      | None => if is_sep c then q else c :: q
      end
  end.

(** No file is called by the empty name, [.] or [..]. *)
Definition name_ok (n : path) : bool :=
  match n with
  | [] => false
  | [c] => negb (c =? 46)%N
  | [c; d] => negb ((c =? 46) && (d =? 46))%N
  | _ => true
  end.

(** Path resolution: the directory part has to be an existing directory. *)
Definition reachable (s : fsys) (p : path) : bool :=
  match parent p with
  | None => true
  | Some d => dir_exists s d
  end.

(** [std::ios_base::openmode], reduced to the two flags the source uses. *)
Record openmode := mk_mode {
  om_out : bool;
  om_app : bool
}.

Definition ios_out : openmode := {| om_out := true; om_app := false |}.
Definition ios_app : openmode := {| om_out := false; om_app := true |}.
Definition mode_or (a b : openmode) : openmode :=
  {| om_out := om_out a || om_out b; om_app := om_app a || om_app b |}.

(** Opening a file for output.  A missing file is created empty, where
    the operating system permits; an existing one keeps its content in
    append mode and loses it otherwise.  A directory, a read-only file, an
    unreachable path and a path without a proper file name cannot be
    opened. *)
Definition os_open (s : fsys) (p : path) (m : openmode) : option fsys :=
  if reachable s p && name_ok (file_name p) then
    match nodes s !! p with
    | Some Dir => None
    | Some (File ro c) =>
        if ro then None
        else if om_app m then Some s
        else Some {| nodes := <[p := File false []]> (nodes s); free := free s;
                     permits := permits s |}
    | None =>
        if permits s p
        then Some {| nodes := <[p := File false []]> (nodes s); free := free s;
                     permits := permits s |}
        else None
    end
  else None.

(** Writing at the end of a file.  The device takes as many characters as
    it has room for, as POSIX has it for [write] at the end of a medium; the
    write succeeds when it took them all. *)
Definition os_write (s : fsys) (p : path) (data : bytes) : fsys * bool :=
  match nodes s !! p with
  | Some (File ro c) =>
      ({| nodes := <[p := File ro (c ++ firstn (free s) data)]> (nodes s);
          free := free s - length data; permits := permits s |},
       (length data <=? free s)%nat)
  | _ => (s, false)
  end.

(** What a file holds; a path that names no file reads as empty. *)
Definition content (s : fsys) (p : path) : option bytes :=
  match nodes s !! p with
  | Some (File _ c) => Some c
  | _ => None
  end.

Definition contents (s : fsys) (p : path) : bytes :=
  match content s p with
  | Some c => c
  | None => []
  end.

(** ** Computations over the file system that may throw *)

Inductive exn := ios_failure.

Inductive outcome (A : Type) :=
| Returns (a : A) (s : fsys)
| Throws (x : exn) (s : fsys).
Arguments Returns {A} a s.
Arguments Throws {A} x s.

Definition M (A : Type) : Type := fsys -> outcome A.

Definition ret {A} (a : A) : M A := fun s => Returns a s.

Definition bind {A B} (m : M A) (k : A -> M B) : M B :=
  fun s =>
    match m s with
    | Returns a s' => k a s'
    | Throws x s' => Throws x s'
    end.

Notation "x <- m ;; k" := (bind m (fun x => k))
  (at level 100, m at next level, right associativity).

(** The file system a computation leaves behind, and what its caller gets
    to see of it: the value returned or the exception thrown. *)
Definition final {A} (o : outcome A) : fsys :=
  match o with
  | Returns _ s => s
  | Throws _ s => s
  end.

Definition seen_by_caller {A} (o : outcome A) : A + exn :=
  match o with
  | Returns a _ => inl a
  | Throws x _ => inr x
  end.

(** ** [std::ofstream] *)

(** [std::ios_base::iostate]. *)
Record iostate := mk_iostate {
  bad : bool;
  eof : bool;
  fail : bool
}.

Definition goodbit : iostate := {| bad := false; eof := false; fail := false |}.
Definition badbit : iostate := {| bad := true; eof := false; fail := false |}.
Definition failbit : iostate := {| bad := false; eof := false; fail := true |}.

Definition ios_or (a b : iostate) : iostate :=
  {| bad := bad a || bad b; eof := eof a || eof b; fail := fail a || fail b |}.

Definition ios_meet (a b : iostate) : bool :=
  (bad a && bad b) || (eof a && eof b) || (fail a && fail b).

Definition good (st : iostate) : bool := negb (bad st || eof st || fail st).

(** The stream: the file its buffer is attached to, the characters waiting
    in the buffer, the error state and the exception mask. *)
Record ofstream := mk_ofstream {
  fb_file : option path;
  fb_pending : bytes;
  rdstate : iostate;
  exceptions : iostate
}.

(** [setstate(bits)], that is [clear(rdstate() | bits)]: throws when a bit
    of the exception mask ends up set. *)
Definition setstate (bits : iostate) (o : ofstream) : M ofstream :=
  let st := ios_or (rdstate o) bits in
  let o' := {| fb_file := fb_file o; fb_pending := fb_pending o;
               rdstate := st; exceptions := exceptions o |} in
  if ios_meet st (exceptions o) then (fun s => Throws ios_failure s) else ret o'.

(** [std::ofstream ofs(path, mode)]: a fresh stream with an empty exception
    mask, opened with [mode | out]; [failbit] when the file does not open. *)
Definition ofstream_ctor (p : path) (mode : openmode) : M ofstream :=
  fun s =>
    match os_open s p (mode_or mode ios_out) with
    | Some s' =>
        Returns {| fb_file := Some p; fb_pending := [];
                   rdstate := goodbit; exceptions := goodbit |} s'
    | None =>
        setstate failbit {| fb_file := None; fb_pending := [];
                            rdstate := goodbit; exceptions := goodbit |} s
    end.

(** [ofs << data] for a string or a single character.  The sentry refuses
    a stream that is not good; otherwise the characters go to the buffer.
    The buffer is written out by [close]; a buffer that filled up and was
    written out earlier would leave the same characters in the file. *)
Definition insert (o : ofstream) (data : bytes) : M ofstream :=
  if good (rdstate o) then
    match fb_file o with
    | Some _ =>
        ret {| fb_file := fb_file o; fb_pending := fb_pending o ++ data;
               rdstate := rdstate o; exceptions := exceptions o |}
    | None => setstate badbit o
    end
  else setstate failbit o.

(** [ofs.close()]: the buffer is written out and the file released;
    [failbit] when no file was open or the write fell short. *)
Definition ofstream_close (o : ofstream) : M ofstream :=
  fun s =>
    match fb_file o with
    | None => setstate failbit o s
    | Some p =>
        let '(s', ok) := os_write s p (fb_pending o) in
        let o' := {| fb_file := None; fb_pending := [];
                     rdstate := rdstate o; exceptions := exceptions o |} in
        if ok then Returns o' s' else setstate failbit o' s'
    end.

(** ** [CLogger::Log] *)

(** The body of [Log] up to and including [ofs.close()], handing back the
    stream so that its final state can be inspected. *)
Definition Log_stream (e : env) (p : path) (level : bytes) (logMsg : list wchar)
    : M ofstream :=
  let ws := wc_str logMsg in
  let strLogMsg := string_of_range ws in
  let now := getCurrentDateTime e in
  ofs <- ofstream_ctor p (mode_or ios_out ios_app) ;;
  ofs <- insert ofs now ;;
  ofs <- insert ofs [TAB] ;;
  ofs <- insert ofs (c_str level) ;;
  ofs <- insert ofs [TAB] ;;
  ofs <- insert ofs strLogMsg ;;
  ofs <- insert ofs [NL] ;;
  ofstream_close ofs.

(** [void CLogger::Log(wchar_t *path, const char *level, const wchar_t *logMsg)]:
    the stream is a local and dies with the call.  [p] is the file name
    [path] points at; [level] and [logMsg] list what those pointers point
    at. *)
Definition Log (e : env) (p : path) (level : bytes) (logMsg : list wchar) : M unit :=
  _ <- Log_stream e p level logMsg ;;
  ret tt.

(** A call succeeded when it returned with its stream still good: the file
    opened and every character was written. *)
Definition Log_succeeds (e : env) (p : path) (level : bytes) (logMsg : list wchar)
    (s : fsys) : bool :=
  match Log_stream e p level logMsg s with
  | Returns o _ => good (rdstate o)
  | Throws _ _ => false
  end.

(** The record a call composes: the six insertions in order. *)
Definition record_of (e : env) (level : bytes) (logMsg : list wchar) : bytes :=
  getCurrentDateTime e ++ [TAB] ++ c_str level ++ [TAB]
    ++ string_of_range (wc_str logMsg) ++ [NL].

(** * Notions the statements use *)

(** ** Timestamps *)

Definition is_digit (c : ascii) : bool :=
  ((48 <=? N_of_ascii c) && (N_of_ascii c <=? 57))%N.

(** A character that is not a control character. *)
Definition graphic (c : ascii) : bool :=
  ((32 <=? N_of_ascii c) && negb (N_of_ascii c =? 127))%N.

(** The shape [[\d{2}-\d{2}-\d{4} \d{2}:\d{2}:\d{2}]] as a list of
    positions: a decimal digit or one given character. *)
Inductive position :=
| any_digit
| just (c : ascii).

Fixpoint matches (pat : list position) (s : bytes) : bool :=
  match pat, s with
  | [], [] => true
  | any_digit :: pat', c :: s' => is_digit c && matches pat' s'
  | just a :: pat', c :: s' => Ascii.eqb a c && matches pat' s'
  | _, _ => false
  end.

Definition dd : list position := [any_digit; any_digit].

Definition timestamp_pattern : list position :=
  [just "["] ++ dd ++ [just "-"] ++ dd ++ [just "-"] ++ (dd ++ dd) ++ [just " "]
    ++ dd ++ [just ":"] ++ dd ++ [just ":"] ++ dd ++ [just "]"].

(** The environments [getCurrentDateTime] is written for: the broken-down
    time is one [localtime] returns, and the locale prints it in at most 58
    characters, none of them a control character.  The rest of the format
    takes at most 20 characters, so that 58 more and the terminator stay
    within 79 of the 80 bytes of the buffer. *)
Definition env_sane (e : env) : Prop :=
  tm_valid (clock e) /\
  (length (time_rep (lc_time e) (clock e)) <= 58)%nat /\
  forallb graphic (time_rep (lc_time e) (clock e)) = true.

(** The number a string of decimal digits denotes. *)
Definition digit_value (c : ascii) : N := (N_of_ascii c - 48)%N.

Definition number_of (s : bytes) : N :=
  fold_left (fun acc c => (10 * acc + digit_value c)%N) s 0%N.

(** A value that prints as its two decimal digits. *)
Definition two_digits (z : Z) : bool :=
  if List.list_eq_dec ascii_dec (dec2 z)
       [digit (Z.to_N (z / 10)); digit (Z.to_N (z mod 10))]
  then true else false.

(** A year that prints as exactly four digits. *)
Definition four_digits (y : Z) : bool := matches (dd ++ dd) (dec_of_Z y).

(** A locale with a twelve-hour clock, as [en_US] has it:
    [%X] is [%I:%M:%S %p]. *)
Definition hour12 (h : Z) : Z := if h mod 12 =? 0 then 12 else h mod 12.

Definition twelve_hour_locale : locale :=
  {| time_rep := fun t =>
       dec2 (hour12 (tm_hour t)) ++ lit ":" ++ dec2 (tm_min t) ++ lit ":"
         ++ dec2 (tm_sec t) ++ lit " "
         ++ (if tm_hour t <? 12 then lit "AM" else lit "PM") |}.

(** ** Lines and fields *)

(** The lines of a text: the runs of characters that end at a newline, and
    the unterminated rest when there is one. *)
Fixpoint lines (s : bytes) : list bytes :=
  match s with
  | [] => []
  | c :: r =>
      if Ascii.eqb c NL then [] :: lines r
      else match lines r with
           | [] => [[c]]
           | l :: ls => (c :: l) :: ls
           end
  end.

(** The fields of a line: what lies between separators. *)
Fixpoint split_on (sep : ascii) (s : bytes) : list bytes :=
  match s with
  | [] => [[]]
  | c :: r =>
      if Ascii.eqb c sep then [] :: split_on sep r
      else match split_on sep r with
           | [] => [[c]]
           | f :: fs => (c :: f) :: fs
           end
  end.

(** ** Sequences of calls on one path *)

Record call := mk_call {
  c_env : env;
  c_level : bytes;
  c_msg : list wchar
}.

Fixpoint Log_all (p : path) (cs : list call) : M unit :=
  match cs with
  | [] => ret tt
  | c :: rest =>
      _ <- Log (c_env c) p (c_level c) (c_msg c) ;;
      Log_all p rest
  end.

Fixpoint all_succeed (p : path) (cs : list call) (s : fsys) : bool :=
  match cs with
  | [] => true
  | c :: rest =>
      Log_succeeds (c_env c) p (c_level c) (c_msg c) s
      && all_succeed p rest (final (Log (c_env c) p (c_level c) (c_msg c) s))
  end.

(** The line a call contributes, without its terminator. *)
Definition line_of (c : call) : bytes :=
  getCurrentDateTime (c_env c) ++ [TAB] ++ c_str (c_level c) ++ [TAB]
    ++ string_of_range (wc_str (c_msg c)).

(** The mode the constructor hands to the operating system. *)
Definition log_mode : openmode := mode_or (mode_or ios_out ios_app) ios_out.

Definition open_fails (s : fsys) (p : path) : bool :=
  match os_open s p log_mode with
  | None => true
  | Some _ => false
  end.

Definition closed_stream (st : iostate) : ofstream :=
  {| fb_file := None; fb_pending := []; rdstate := st; exceptions := goodbit |}.

(** ** Sample inputs *)

Definition wide (s : string) : list wchar := map N_of_ascii (list_ascii_of_string s).

(** 5 March 2024, 14:02:31, a Tuesday. *)
Definition sample_tm : tm :=
  {| tm_sec := 31; tm_min := 2; tm_hour := 14; tm_mday := 5; tm_mon := 2;
     tm_year := 124; tm_wday := 2; tm_yday := 64; tm_isdst := 0 |}.

Definition sample_env : env :=
  {| clock := sample_tm; lc_time := C_locale; stack_junk := repeat "x"%char 80;
     indeterminate := repeat "x"%char 80; stack_beyond := [NUL] |}.

Definition sample_env_12h : env :=
  {| clock := sample_tm; lc_time := twelve_hour_locale;
     stack_junk := repeat "x"%char 80;
     indeterminate := repeat "x"%char 80; stack_beyond := [NUL] |}.

Definition sample_path : path := wide "C:\logs\app.log".
Definition orphan_path : path := wide "C:\missing\app.log".

(** A volume with the directory [C:\logs] and room for [room] characters,
    where the caller may create any file. *)
Definition sample_fs (room : nat) : fsys :=
  {| nodes := {[ wide "C:\logs" := Dir ]}; free := room; permits := fun _ => true |}.

(** The message "disk", a newline, "full". *)
Definition two_line_msg : list wchar := wide "disk" ++ [10%N] ++ wide "full".

(** Two calls, the second in the twelve-hour locale. *)
Definition sample_calls : list call :=
  [ mk_call sample_env (lit "INFO") (wide "starting");
    mk_call sample_env_12h (lit "ERROR") (wide "disk full") ].

(** Facts about the sample inputs hold by evaluation. *)
Ltac evaluate :=
  repeat split; cbn;
  first [ reflexivity | lia | (vm_compute; reflexivity)
        | (apply Nat.leb_le; vm_compute; reflexivity)
        | (intros Hin; vm_compute in Hin; intuition discriminate) ].

(** ** Reading a timestamp back *)

(** The six numbers of a timestamp. *)
Record stamp := mk_stamp {
  st_day : Z;
  st_month : Z;
  st_year : Z;
  st_hour : Z;
  st_minute : Z;
  st_second : Z
}.

Definition field (s : bytes) : Z := Z.of_N (number_of s).

(** A string of the shape [[DD-MM-YYYY HH:MM:SS]] read by position; any
    other string is refused. *)
Definition parse_timestamp (s : bytes) : option stamp :=
  if matches timestamp_pattern s then
    match s with
    | [_; d1; d2; _; m1; m2; _; y1; y2; y3; y4; _; h1; h2; _; n1; n2; _; s1; s2; _] =>
        Some {| st_day := field [d1; d2]; st_month := field [m1; m2];
                st_year := field [y1; y2; y3; y4]; st_hour := field [h1; h2];
                st_minute := field [n1; n2]; st_second := field [s1; s2] |}
    | _ => None
    end
  else None.

(** ** More sample inputs *)

(** A locale whose time representation is 75 characters long, and an
    environment with it in which the library, giving up, leaves the first
    80 characters of the expansion in the array, and the memory behind the
    array holds one character and a NUL. *)
Definition verbose_locale : locale :=
  {| time_rep := fun _ => repeat "~"%char 75 |}.

Definition sample_env_verbose : env :=
  {| clock := sample_tm; lc_time := verbose_locale;
     stack_junk := repeat "x"%char 80;
     indeterminate := firstn 80 (expand verbose_locale (lit "[%d-%m-%Y %X]") sample_tm);
     stack_beyond := ["x"%char; NUL] |}.

(** * Properties *)

(** ** What a call does to the file system *)

Lemma Log_stream_eq e p level logMsg s :
  Log_stream e p level logMsg s =
    match os_open s p log_mode with
    | None => Returns (closed_stream failbit) s
    | Some s1 =>
        let '(s2, ok) := os_write s1 p (record_of e level logMsg) in
        Returns (closed_stream (if ok then goodbit else failbit)) s2
    end.
Proof.
  unfold Log_stream, record_of.
  generalize (getCurrentDateTime e) (c_str level) (string_of_range (wc_str logMsg)).
  intros now lv body.
  unfold bind at 1. unfold ofstream_ctor. fold log_mode.
  destruct (os_open s p log_mode) as [s1|]; [|reflexivity].
  cbn -[os_write app].
  rewrite <- !app_assoc. cbn [app].
  destruct (os_write s1 p _) as [s2 [|]]; reflexivity.
Qed.

Lemma os_open_app s p s1 :
  os_open s p log_mode = Some s1 ->
  free s1 = free s /\
  nodes s1 !! p = Some (File false (contents s p)) /\
  (forall q, q <> p -> nodes s1 !! q = nodes s !! q).
Proof.
  unfold os_open, contents, content.
  destruct (reachable s p && name_ok (file_name p)); [|discriminate].
  destruct (nodes s !! p) as [[|ro c]|] eqn:Hp.
  - discriminate.
  - destruct ro; [discriminate|]. cbn. intros [= <-]. auto.
  - destruct (permits s p); [|discriminate].
    intros [= <-]. cbn. split; [reflexivity|]. split.
    + apply lookup_insert_eq.
    + intros q Hq. apply lookup_insert_ne. congruence.
Qed.

Lemma os_write_file s p ro c data :
  nodes s !! p = Some (File ro c) ->
  os_write s p data =
    ({| nodes := <[p := File ro (c ++ firstn (free s) data)]> (nodes s);
        free := free s - length data; permits := permits s |},
     (length data <=? free s)%nat).
Proof. intros H. unfold os_write. rewrite H. reflexivity. Qed.

(** The stream never throws: its exception mask is empty. *)
Lemma Log_returns e p level logMsg s :
  Log e p level logMsg s = Returns tt (final (Log e p level logMsg s)).
Proof.
  unfold Log, bind. rewrite Log_stream_eq.
  destruct (os_open s p log_mode) as [s1|]; [|reflexivity].
  destruct (os_write s1 p _) as [s2 ok]. reflexivity.
Qed.

Lemma Log_open_fails e p level logMsg s :
  os_open s p log_mode = None ->
  final (Log e p level logMsg s) = s /\ Log_succeeds e p level logMsg s = false.
Proof.
  intros H. unfold Log, Log_succeeds, bind. rewrite Log_stream_eq, H. auto.
Qed.

Lemma Log_opened e p level logMsg s s1 :
  os_open s p log_mode = Some s1 ->
  let r := record_of e level logMsg in
  let s2 := final (Log e p level logMsg s) in
  Log_succeeds e p level logMsg s = (length r <=? free s)%nat /\
  nodes s2 !! p = Some (File false (contents s p ++ firstn (free s) r)) /\
  free s2 = (free s - length r)%nat /\
  (forall q, q <> p -> nodes s2 !! q = nodes s !! q).
Proof.
  intros H. destruct (os_open_app _ _ _ H) as (Hfree & Hp & Hframe).
  unfold Log, Log_succeeds, bind. rewrite Log_stream_eq, H.
  rewrite (os_write_file _ _ _ _ _ Hp). cbn -[firstn]. rewrite Hfree.
  split; [destruct (_ <=? _)%nat; reflexivity|].
  split; [apply lookup_insert_eq|]. split; [reflexivity|].
  intros q Hq. rewrite lookup_insert_ne by congruence. auto.
Qed.

Lemma Log_succeeds_opens e p level logMsg s :
  Log_succeeds e p level logMsg s = true ->
  exists s1, os_open s p log_mode = Some s1 /\
    (length (record_of e level logMsg) <= free s)%nat.
Proof.
  intros H. destruct (os_open s p log_mode) as [s1|] eqn:Ho.
  - exists s1. split; [reflexivity|].
    destruct (Log_opened e p level logMsg _ _ Ho) as (Hs & _).
    rewrite Hs in H. apply Nat.leb_le in H. exact H.
  - destruct (Log_open_fails e p level logMsg _ Ho) as (_ & Hs). congruence.
Qed.

Lemma content_file s p ro c : nodes s !! p = Some (File ro c) -> content s p = Some c.
Proof. intros H. unfold content. rewrite H. reflexivity. Qed.

Lemma Log_success_content e p level logMsg s :
  Log_succeeds e p level logMsg s = true ->
  content (final (Log e p level logMsg s)) p =
    Some (contents s p ++ record_of e level logMsg).
Proof.
  intros H. destruct (Log_succeeds_opens _ _ _ _ _ H) as (s1 & Ho & Hlen).
  destruct (Log_opened e p level logMsg _ _ Ho) as (_ & Hp & _).
  rewrite (content_file _ _ _ _ Hp), firstn_all2 by exact Hlen. reflexivity.
Qed.

(** ** Digits and decimal numbers *)

Lemma digit_code n : N_of_ascii (digit n) = (48 + n mod 10)%N.
Proof.
  unfold digit. apply N_ascii_embedding.
  pose proof (N.mod_upper_bound n 10 ltac:(discriminate)).
  generalize dependent (n mod 10)%N. intros m Hm. lia.
Qed.

Lemma digit_is_digit n : is_digit (digit n) = true.
Proof.
  unfold is_digit. rewrite digit_code.
  pose proof (N.mod_upper_bound n 10 ltac:(discriminate)).
  generalize dependent (n mod 10)%N. intros m Hm.
  apply andb_true_intro. split; apply N.leb_le; lia.
Qed.

Lemma is_digit_graphic c : is_digit c = true -> graphic c = true.
Proof.
  unfold is_digit, graphic. intros H.
  apply andb_prop in H. destruct H as [H1 H2].
  apply N.leb_le in H1. apply N.leb_le in H2.
  apply andb_true_intro. split.
  - apply N.leb_le. lia.
  - apply negb_true_iff, N.eqb_neq. lia.
Qed.

Lemma digits_graphic s : forallb is_digit s = true -> forallb graphic s = true.
Proof.
  rewrite !forallb_forall. intros H c Hc. apply is_digit_graphic, H, Hc.
Qed.

Lemma dec_digits_digits fuel : forall n acc,
  forallb is_digit acc = true -> forallb is_digit (dec_digits fuel n acc) = true.
Proof.
  induction fuel as [|fuel IH]; intros n acc Hacc; cbn [dec_digits]; [exact Hacc|].
  assert (Hstep : forallb is_digit (digit (n mod 10) :: acc) = true)
    by (cbn [forallb]; rewrite digit_is_digit; exact Hacc).
  destruct (n / 10 =? 0)%N; [exact Hstep | apply IH, Hstep].
Qed.

(** A number below [10^k] has at most [k] digits. *)
Lemma dec_digits_length fuel : forall n acc k,
  (n < 10 ^ N.of_nat k)%N -> (1 <= k)%nat ->
  (length (dec_digits fuel n acc) <= k + length acc)%nat.
Proof.
  induction fuel as [|fuel IH]; intros n acc k Hn Hk; cbn [dec_digits]; [lia|].
  destruct (n / 10 =? 0)%N eqn:Hq.
  - cbn [length]. lia.
  - apply N.eqb_neq in Hq.
    destruct k as [|[|k]]; [lia| |].
    + exfalso. apply Hq. apply N.div_small. exact Hn.
    + specialize (IH (n / 10)%N (digit (n mod 10) :: acc) (S k)).
      cbn [length] in IH.
      assert (n / 10 < 10 ^ N.of_nat (S k))%N.
      { apply N.Div0.div_lt_upper_bound.
        replace (N.of_nat (S (S k))) with (N.succ (N.of_nat (S k))) in Hn by lia.
        rewrite N.pow_succ_r' in Hn. exact Hn. }
      specialize (IH H ltac:(lia)). lia.
Qed.

Lemma dec_of_N_length n k :
  (n < 10 ^ N.of_nat k)%N -> (1 <= k)%nat -> (length (dec_of_N n) <= k)%nat.
Proof.
  intros Hn Hk. unfold dec_of_N.
  pose proof (dec_digits_length (S (N.to_nat (N.log2 n))) n [] k Hn Hk) as H.
  cbn [length] in H. lia.
Qed.

Lemma dec_of_Z_digits_or_sign z :
  forallb graphic (dec_of_Z z) = true.
Proof.
  unfold dec_of_Z, dec_of_N.
  destruct (z <? 0); cbn [forallb]; [change (graphic "-") with true; cbn [andb]|];
    apply digits_graphic, dec_digits_digits; reflexivity.
Qed.

(** An [int] prints in at most eleven characters. *)
Lemma dec_of_Z_length z :
  -2147483648 <= z <= 2147483647 -> (length (dec_of_Z z) <= 11)%nat.
Proof.
  intros Hz. unfold dec_of_Z. destruct (z <? 0) eqn:Hneg.
  - apply Z.ltb_lt in Hneg. cbn [length].
    pose proof (dec_of_N_length (Z.abs_N z) 10) as H.
    assert (Z.abs_N z < 10 ^ N.of_nat 10)%N by (change (10 ^ N.of_nat 10)%N with 10000000000%N; lia).
    specialize (H H0 ltac:(lia)). lia.
  - apply Z.ltb_ge in Hneg.
    pose proof (dec_of_N_length (Z.to_N z) 10) as H.
    assert (Z.to_N z < 10 ^ N.of_nat 10)%N by (change (10 ^ N.of_nat 10)%N with 10000000000%N; lia).
    specialize (H H0 ltac:(lia)). lia.
Qed.

(** The values from 0 to 99 print as their two digits; checked over the
    whole range. *)
Lemma two_digit_values_checked :
  forallb two_digits (map Z.of_nat (seq 0 100)) = true.
Proof. vm_compute. reflexivity. Qed.

Lemma dec2_two_digits z :
  0 <= z <= 99 -> dec2 z = [digit (Z.to_N (z / 10)); digit (Z.to_N (z mod 10))].
Proof.
  intros Hz. pose proof two_digit_values_checked as H.
  rewrite forallb_forall in H. specialize (H z). unfold two_digits in H.
  destruct (List.list_eq_dec ascii_dec (dec2 z) _) as [Heq|_]; [exact Heq|].
  assert (false = true); [|discriminate]. apply H.
  apply in_map_iff. exists (Z.to_nat z). split; [lia|]. apply in_seq. lia.
Qed.

Lemma dec2_length z : 0 <= z <= 99 -> length (dec2 z) = 2%nat.
Proof. intros Hz. rewrite (dec2_two_digits z Hz). reflexivity. Qed.

Lemma dec2_digits z : 0 <= z <= 99 -> forallb is_digit (dec2 z) = true.
Proof.
  intros Hz. rewrite (dec2_two_digits z Hz). cbn [forallb].
  rewrite !digit_is_digit. reflexivity.
Qed.

Lemma dec2_matches z : 0 <= z <= 99 -> matches dd (dec2 z) = true.
Proof.
  intros Hz. rewrite (dec2_two_digits z Hz). unfold dd. cbn [matches].
  rewrite !digit_is_digit. reflexivity.
Qed.

Lemma dec2_graphic z : forallb graphic (dec2 z) = true.
Proof.
  unfold dec2. destruct ((0 <=? z) && (z <? 10)); cbn [forallb];
    rewrite dec_of_Z_digits_or_sign; reflexivity.
Qed.

(** The two digits of a value below 100 denote it. *)
Lemma dec2_value z :
  0 <= z <= 99 ->
  exists hi lo, dec2 z = [digit hi; digit lo] /\
    (hi < 10)%N /\ (lo < 10)%N /\ z = Z.of_N (10 * hi + lo).
Proof.
  intros Hz. exists (Z.to_N (z / 10)), (Z.to_N (z mod 10)).
  split; [exact (dec2_two_digits z Hz)|].
  pose proof (Z.div_mod z 10 ltac:(lia)).
  pose proof (Z.mod_pos_bound z 10 ltac:(lia)).
  assert (0 <= z / 10 < 10)
    by (split; [apply Z.div_pos; lia | apply Z.div_lt_upper_bound; lia]).
  repeat split; lia.
Qed.

(** Within the range of [int] the sum is the exact sum. *)
Lemma int_wrap_id z : -2147483648 <= z <= 2147483647 -> int_wrap z = z.
Proof.
  intros Hz. unfold int_wrap. rewrite Z.mod_small by lia. lia.
Qed.

(** A year from 1000 to 9999 prints as exactly four digits; checked over
    the whole range. *)
Lemma four_digit_years_checked :
  forallb four_digits (map (fun k => 1000 + Z.of_nat k) (seq 0 (Z.to_nat 9000))) = true.
Proof. vm_compute. reflexivity. Qed.

Lemma dec_of_Z_year y :
  1000 <= y <= 9999 -> matches (dd ++ dd) (dec_of_Z y) = true.
Proof.
  intros Hy. pose proof four_digit_years_checked as H.
  rewrite forallb_forall in H. apply (H y).
  apply in_map_iff. exists (Z.to_nat (y - 1000)). split; [lia|].
  apply in_seq. lia.
Qed.

(** The digits denote the number: the fuel of [dec_of_N] is enough. *)
Lemma digit_value_digit n : digit_value (digit n) = (n mod 10)%N.
Proof.
  unfold digit_value. rewrite digit_code.
  generalize (n mod 10)%N. intros r. lia.
Qed.

Lemma digit_value_remainder n : digit_value (digit (n mod 10)) = (n mod 10)%N.
Proof. rewrite digit_value_digit. apply N.Div0.mod_mod. Qed.

Lemma number_of_from acc0 s :
  fold_left (fun acc c => (10 * acc + digit_value c)%N) s acc0
  = (acc0 * 10 ^ N.of_nat (length s) + number_of s)%N.
Proof.
  unfold number_of. revert acc0.
  induction s as [|c s IH]; intros acc0; cbn [fold_left length].
  - cbn. lia.
  - rewrite IH, (IH (10 * 0 + digit_value c)%N).
    rewrite Nat2N.inj_succ, N.pow_succ_r'. lia.
Qed.

Lemma number_of_cons c s :
  number_of (c :: s) = (digit_value c * 10 ^ N.of_nat (length s) + number_of s)%N.
Proof.
  unfold number_of at 1. cbn [fold_left]. rewrite number_of_from. lia.
Qed.

Lemma number_of_dec_digits fuel : forall n acc,
  (n < 10 ^ N.of_nat fuel)%N -> (1 <= fuel)%nat ->
  number_of (dec_digits fuel n acc)
  = (n * 10 ^ N.of_nat (length acc) + number_of acc)%N.
Proof.
  induction fuel as [|fuel IH]; intros n acc Hn Hf; [lia|].
  cbn [dec_digits].
  pose proof (N.div_mod n 10 ltac:(discriminate)) as Hdm.
  destruct (n / 10 =? 0)%N eqn:Hq.
  - apply N.eqb_eq in Hq. rewrite number_of_cons, digit_value_remainder.
    rewrite Hq in Hdm.
    assert (Hsmall : (n mod 10 = n)%N)
      by (generalize dependent (n mod 10)%N; intros; lia).
    rewrite Hsmall. reflexivity.
  - apply N.eqb_neq in Hq.
    destruct fuel as [|fuel].
    + exfalso. apply Hq, N.div_small. exact Hn.
    + rewrite IH.
      * cbn [length]. rewrite number_of_cons, digit_value_remainder.
        rewrite Nat2N.inj_succ, N.pow_succ_r'.
        rewrite Hdm at 3.
        generalize (n / 10)%N (n mod 10)%N (10 ^ N.of_nat (length acc))%N.
        intros q r P. lia.
      * apply N.Div0.div_lt_upper_bound.
        rewrite Nat2N.inj_succ, N.pow_succ_r' in Hn. exact Hn.
      * lia.
Qed.

Lemma pow2_le_pow10 k : (2 ^ k <= 10 ^ k)%N.
Proof. apply N.pow_le_mono_l. lia. Qed.

Lemma number_of_dec_of_N n : number_of (dec_of_N n) = n.
Proof.
  unfold dec_of_N. rewrite number_of_dec_digits; [cbn; lia| |lia].
  rewrite Nat2N.inj_succ, N2Nat.id.
  destruct n as [|p]; [reflexivity|].
  pose proof (N.log2_spec (N.pos p) ltac:(lia)) as [_ Hlt].
  pose proof (pow2_le_pow10 (N.succ (N.log2 (N.pos p)))). lia.
Qed.

Lemma number_of_dec_of_Z y : 0 <= y -> Z.of_N (number_of (dec_of_Z y)) = y.
Proof.
  intros Hy. unfold dec_of_Z.
  destruct (Z.ltb_spec y 0); [lia|]. rewrite number_of_dec_of_N. lia.
Qed.

Lemma number_of_dec2 z : 0 <= z <= 99 -> Z.of_N (number_of (dec2 z)) = z.
Proof.
  intros Hz. destruct (dec2_value z Hz) as (hi & lo & Heq & Hhi & Hlo & Hval).
  rewrite Heq. unfold number_of. cbn [fold_left].
  rewrite !digit_value_digit, !N.mod_small by assumption. lia.
Qed.

(** ** The timestamp *)

Lemma matches_app p1 : forall p2 s1 s2,
  matches p1 s1 = true -> matches p2 s2 = true -> matches (p1 ++ p2) (s1 ++ s2) = true.
Proof.
  induction p1 as [|[|a] p1 IH]; intros p2 s1 s2 H1 H2; destruct s1 as [|c s1];
    cbn [matches app] in *; try discriminate; auto.
  - apply andb_prop in H1. destruct H1 as [Hc H1]. rewrite Hc. cbn [andb]. auto.
  - apply andb_prop in H1. destruct H1 as [Hc H1]. rewrite Hc. cbn [andb]. auto.
Qed.

Lemma matches_just c : matches [just c] [c] = true.
Proof. cbn [matches]. rewrite Ascii.eqb_refl. reflexivity. Qed.

Lemma graphic_not_NUL c : graphic c = true -> Ascii.eqb c NUL = false.
Proof.
  intros H. apply Ascii.eqb_neq. intros ->. discriminate.
Qed.

Lemma graphic_free s c :
  forallb graphic s = true -> graphic c = false -> ~ In c s.
Proof.
  intros Hs Hc Hin. rewrite forallb_forall in Hs. specialize (Hs c Hin). congruence.
Qed.

(** [std::string(buf)] reads back exactly what was stored before the
    terminator. *)
Lemma c_str_terminated s : forall rest,
  forallb graphic s = true -> c_str (s ++ NUL :: rest) = s.
Proof.
  induction s as [|c s IH]; intros rest H; cbn [app c_str forallb] in *.
  - reflexivity.
  - apply andb_prop in H. destruct H as [Hc Hs].
    rewrite (graphic_not_NUL _ Hc), IH by exact Hs. reflexivity.
Qed.

(** The source's format, expanded. *)
Lemma expand_format_raw loc t :
  expand loc (lit "[%d-%m-%Y %X]") t =
    lit "[" ++ dec2 (tm_mday t) ++ lit "-" ++ dec2 (int_wrap (tm_mon t + 1)) ++ lit "-"
      ++ dec_of_Z (int_wrap (tm_year t + 1900)) ++ lit " " ++ time_rep loc t ++ lit "]".
Proof. reflexivity. Qed.

Lemma expand_format loc t :
  tm_valid t ->
  expand loc (lit "[%d-%m-%Y %X]") t =
    lit "[" ++ dec2 (tm_mday t) ++ lit "-" ++ dec2 (tm_mon t + 1) ++ lit "-"
      ++ dec_of_Z (tm_year t + 1900) ++ lit " " ++ time_rep loc t ++ lit "]".
Proof.
  intros (_ & _ & _ & _ & Hmo & Hy).
  rewrite expand_format_raw, !int_wrap_id by lia. reflexivity.
Qed.

Lemma expand_format_length loc t :
  tm_valid t ->
  (length (expand loc (lit "[%d-%m-%Y %X]") t) <= 20 + length (time_rep loc t))%nat.
Proof.
  intros Htm. rewrite (expand_format loc t Htm).
  destruct Htm as (_ & _ & _ & Hd & Hmo & Hy).
  pose proof (dec_of_Z_length _ Hy).
  repeat (rewrite ?length_app; cbn [length lit list_ascii_of_string]).
  rewrite !dec2_length by lia. lia.
Qed.

Lemma expand_format_graphic loc t :
  forallb graphic (time_rep loc t) = true ->
  forallb graphic (expand loc (lit "[%d-%m-%Y %X]") t) = true.
Proof.
  intros HX. rewrite expand_format_raw.
  rewrite !forallb_app, HX, dec_of_Z_digits_or_sign, !dec2_graphic. reflexivity.
Qed.

(** In a sane environment [strftime] has room, and the function returns the
    expansion of its format. *)
Lemma timestamp_sane e :
  env_sane e ->
  getCurrentDateTime e = expand (lc_time e) (lit "[%d-%m-%Y %X]") (clock e) /\
  (length (getCurrentDateTime e) < 79)%nat /\
  forallb graphic (getCurrentDateTime e) = true.
Proof.
  intros (Htm & Hlen & Hgr).
  pose proof (expand_format_length (lc_time e) _ Htm) as Hl.
  pose proof (expand_format_graphic (lc_time e) _ Hgr) as Hg.
  assert (Heq : getCurrentDateTime e = expand (lc_time e) (lit "[%d-%m-%Y %X]") (clock e)).
  { unfold getCurrentDateTime, strftime.
    destruct (Nat.ltb_spec (length (expand (lc_time e) (lit "[%d-%m-%Y %X]") (clock e))) 80);
      [|lia].
    rewrite <- app_assoc. cbn [app]. apply c_str_terminated, Hg. }
  rewrite Heq. split; [reflexivity|]. split; [lia | exact Hg].
Qed.

Lemma C_locale_time_rep t :
  tm_valid t ->
  length (time_rep C_locale t) = 8%nat /\ forallb graphic (time_rep C_locale t) = true.
Proof.
  intros (Hs & Hmi & Hh & _). cbn [time_rep C_locale]. split.
  - repeat (rewrite ?length_app; cbn [length lit list_ascii_of_string]).
    rewrite !dec2_length by lia. reflexivity.
  - rewrite !forallb_app, !dec2_graphic. reflexivity.
Qed.

Lemma C_locale_sane e :
  lc_time e = C_locale -> tm_valid (clock e) -> env_sane e.
Proof.
  intros Hloc Htm. unfold env_sane. rewrite Hloc.
  destruct (C_locale_time_rep (clock e) Htm) as [Hl Hg]. rewrite Hl.
  split; [exact Htm|]. split; [lia | exact Hg].
Qed.

(** In the "C" locale the timestamp spells out the members of the
    broken-down time. *)
Lemma timestamp_C_expansion e :
  lc_time e = C_locale -> tm_valid (clock e) ->
  getCurrentDateTime e =
    lit "[" ++ dec2 (tm_mday (clock e)) ++ lit "-" ++ dec2 (tm_mon (clock e) + 1)
      ++ lit "-" ++ dec_of_Z (tm_year (clock e) + 1900) ++ lit " "
      ++ dec2 (tm_hour (clock e)) ++ lit ":" ++ dec2 (tm_min (clock e))
      ++ lit ":" ++ dec2 (tm_sec (clock e)) ++ lit "]".
Proof.
  intros Hloc Htm.
  destruct (timestamp_sane e (C_locale_sane e Hloc Htm)) as (Heq & _).
  rewrite Heq, (expand_format _ _ Htm), Hloc. cbn [time_rep C_locale].
  rewrite <- !app_assoc. reflexivity.
Qed.

(** The five two-digit members of a broken-down time around a four-digit
    year have the fixed shape. *)
Lemma shape_matches t :
  tm_valid t ->
  1000 <= tm_year t + 1900 <= 9999 ->
  matches timestamp_pattern
    (lit "[" ++ dec2 (tm_mday t) ++ lit "-" ++ dec2 (tm_mon t + 1) ++ lit "-"
       ++ dec_of_Z (tm_year t + 1900) ++ lit " " ++ dec2 (tm_hour t) ++ lit ":"
       ++ dec2 (tm_min t) ++ lit ":" ++ dec2 (tm_sec t) ++ lit "]")
  = true.
Proof.
  intros (Hs & Hmi & Hh & Hd & Hmo & _) Hy. unfold timestamp_pattern.
  repeat first
    [ apply matches_app | apply matches_just | apply (dec_of_Z_year _ Hy)
    | (apply dec2_matches; lia) ].
Qed.

(** ** Lines and fields *)

Lemma lines_terminated l : forall rest,
  ~ In NL l -> lines (l ++ NL :: rest) = l :: lines rest.
Proof.
  induction l as [|c l IH]; intros rest Hl; cbn [app lines].
  - reflexivity.
  - destruct (Ascii.eqb_spec c NL) as [->|_]; [exfalso; apply Hl; left; reflexivity|].
    rewrite IH; [reflexivity|]. intros Hin. apply Hl. right. exact Hin.
Qed.

Lemma lines_concat ls :
  Forall (fun l => ~ In NL l) ls ->
  lines (concat (map (fun l => l ++ [NL]) ls)) = ls.
Proof.
  induction 1 as [|l ls Hl _ IH]; cbn [map concat]; [reflexivity|].
  rewrite <- app_assoc. cbn [app]. rewrite lines_terminated, IH by exact Hl.
  reflexivity.
Qed.

Lemma split_on_plain sep f : ~ In sep f -> split_on sep f = [f].
Proof.
  induction f as [|c f IH]; intros Hf; cbn [split_on]; [reflexivity|].
  destruct (Ascii.eqb_spec c sep) as [->|_]; [exfalso; apply Hf; left; reflexivity|].
  rewrite IH; [reflexivity|]. intros Hin. apply Hf. right. exact Hin.
Qed.

Lemma split_on_field sep f : forall rest,
  ~ In sep f -> split_on sep (f ++ sep :: rest) = f :: split_on sep rest.
Proof.
  induction f as [|c f IH]; intros rest Hf; cbn [app split_on].
  - rewrite Ascii.eqb_refl. reflexivity.
  - destruct (Ascii.eqb_spec c sep) as [->|_]; [exfalso; apply Hf; left; reflexivity|].
    rewrite IH; [reflexivity|]. intros Hin. apply Hf. right. exact Hin.
Qed.

Lemma not_in_app (c : ascii) (a b : bytes) : ~ In c a -> ~ In c b -> ~ In c (a ++ b).
Proof. intros Ha Hb Hin. apply in_app_or in Hin. tauto. Qed.

Lemma not_in_single (c d : ascii) : c <> d -> ~ In c [d].
Proof. intros Hne [H|[]]. congruence. Qed.

(** ** Records and sequences of calls *)

Lemma record_of_line c :
  record_of (c_env c) (c_level c) (c_msg c) = line_of c ++ [NL].
Proof. unfold record_of, line_of. rewrite <- !app_assoc. reflexivity. Qed.

Lemma contents_of_content s p c : content s p = Some c -> contents s p = c.
Proof. intros H. unfold contents. rewrite H. reflexivity. Qed.

Lemma Log_all_contents p cs : forall s,
  all_succeed p cs s = true ->
  Log_all p cs s = Returns tt (final (Log_all p cs s)) /\
  contents (final (Log_all p cs s)) p =
    contents s p ++ concat (map (fun c => line_of c ++ [NL]) cs).
Proof.
  induction cs as [|c cs IH]; intros s H; cbn [Log_all all_succeed map concat] in *.
  - split; [reflexivity|]. cbn. rewrite app_nil_r. reflexivity.
  - apply andb_prop in H. destruct H as [Hc Hrest].
    unfold bind. rewrite Log_returns.
    destruct (IH _ Hrest) as [Hret Hcont]. split; [exact Hret|].
    rewrite Hcont.
    rewrite (contents_of_content _ _ _ (Log_success_content _ _ _ _ _ Hc)).
    rewrite record_of_line, <- app_assoc. reflexivity.
Qed.

(** A sane timestamp holds no separator and no terminator. *)
Lemma timestamp_plain e :
  env_sane e -> ~ In TAB (getCurrentDateTime e) /\ ~ In NL (getCurrentDateTime e).
Proof.
  intros H. destruct (timestamp_sane e H) as (_ & _ & Hg).
  split; apply (graphic_free _ _ Hg); reflexivity.
Qed.

(** ** Success, failure and what the caller sees *)

Lemma Log_succeeds_eq e p level logMsg s :
  Log_succeeds e p level logMsg s =
    negb (open_fails s p) && (length (record_of e level logMsg) <=? free s)%nat.
Proof.
  unfold open_fails. destruct (os_open s p log_mode) as [s1|] eqn:Ho.
  - destruct (Log_opened e p level logMsg _ _ Ho) as (Hs & _). rewrite Hs. reflexivity.
  - destruct (Log_open_fails e p level logMsg _ Ho) as (_ & Hs). rewrite Hs. reflexivity.
Qed.

Lemma Log_seen e p level logMsg s : seen_by_caller (Log e p level logMsg s) = inl tt.
Proof. rewrite Log_returns. reflexivity. Qed.

Lemma missing_parent_open_fails s p d :
  parent p = Some d -> dir_exists s d = false -> os_open s p log_mode = None.
Proof.
  intros Hp Hd. unfold os_open, reachable. rewrite Hp, Hd. reflexivity.
Qed.

Lemma narrow_char_code c : N_of_ascii (narrow_char c) = (c mod 256)%N.
Proof.
  unfold narrow_char. apply N_ascii_embedding.
  apply N.mod_upper_bound. discriminate.
Qed.

Lemma narrow_range_identity w :
  Forall (fun c => (c < 256)%N) w -> map N_of_ascii (string_of_range w) = w.
Proof.
  induction 1 as [|c w Hc _ IH]; cbn [string_of_range map]; [reflexivity|].
  fold (string_of_range w). rewrite IH, narrow_char_code, N.mod_small by exact Hc.
  reflexivity.
Qed.



Lemma c_str_cut l : forall tail, c_str (l ++ NUL :: tail) = c_str l.
Proof.
  induction l as [|c l IH]; intros tail; cbn [app c_str].
  - reflexivity.
  - destruct (Ascii.eqb c NUL); [reflexivity | rewrite IH; reflexivity].
Qed.

Lemma wc_str_cut m : forall tail, wc_str (m ++ 0%N :: tail) = wc_str m.
Proof.
  induction m as [|c m IH]; intros tail; cbn [app wc_str].
  - reflexivity.
  - destruct (c =? 0)%N; [reflexivity | rewrite IH; reflexivity].
Qed.

(** * The claims *)



(** C2 (amended).  Take [N] successful calls in a row on a path that did
    not exist, each in a sane environment and with no newline in its level
    or its narrowed message.  Then the file is the concatenation of the [N]
    records in call order and has exactly [N] lines, the [i]-th being
    timestamp, TAB, level, TAB, narrowed message of the [i]-th call, with a
    timestamp of the shape [[DD-MM-YYYY HH:MM:SS]] wherever the call ran in
    the "C" locale in a four-digit year. *)
Theorem Log_sequence_lines p cs s :
  nodes s !! p = None ->
  all_succeed p cs s = true ->
  Forall (fun c => env_sane (c_env c) /\
                   ~ In NL (c_str (c_level c)) /\
                   ~ In NL (string_of_range (wc_str (c_msg c)))) cs ->
  Log_all p cs s = Returns tt (final (Log_all p cs s)) /\
  contents (final (Log_all p cs s)) p
    = concat (map (fun c => getCurrentDateTime (c_env c) ++ [TAB] ++ c_str (c_level c)
                              ++ [TAB] ++ string_of_range (wc_str (c_msg c)) ++ [NL]) cs) /\
  lines (contents (final (Log_all p cs s)) p) = map line_of cs /\
  length (lines (contents (final (Log_all p cs s)) p)) = length cs /\
  Forall (fun c => lc_time (c_env c) = C_locale ->
                   1000 <= tm_year (clock (c_env c)) + 1900 <= 9999 ->
                   matches timestamp_pattern (getCurrentDateTime (c_env c)) = true) cs.
Proof.
  intros Hfresh Hall Hplain.
  destruct (Log_all_contents p cs s Hall) as [Hret Hcont].
  assert (Hempty : contents s p = []) by (unfold contents, content; rewrite Hfresh; reflexivity).
  rewrite Hempty in Hcont. cbn [app] in Hcont.
  assert (Hlines : lines (contents (final (Log_all p cs s)) p) = map line_of cs).
  { rewrite Hcont, <- (map_map line_of (fun l => l ++ [NL])).
    apply lines_concat. apply List.Forall_map.
    eapply List.Forall_impl; [|exact Hplain].
    intros c (Henv & Hl & Hm). destruct (timestamp_plain _ Henv) as [_ Hts].
    unfold line_of.
    repeat apply not_in_app; try assumption; apply not_in_single; discriminate. }
  split; [exact Hret|]. split; [|split; [exact Hlines|split]].
  - rewrite Hcont. f_equal. apply map_ext. intros c.
    unfold line_of. rewrite <- !app_assoc. reflexivity.
  - rewrite Hlines. apply length_map.
  - eapply List.Forall_impl; [|exact Hplain].
    intros c (Henv & _) Hloc Hy. destruct Henv as (Htm & _).
    rewrite (timestamp_C_expansion _ Hloc Htm).
    apply (shape_matches _ Htm Hy).
Qed.

Lemma Log_sequence_lines_example :
  lines (contents (final (Log_all sample_path sample_calls (sample_fs 1000))) sample_path)
    = [ lit "[05-03-2024 14:02:31]" ++ [TAB] ++ lit "INFO" ++ [TAB] ++ lit "starting";
        lit "[05-03-2024 02:02:31 PM]" ++ [TAB] ++ lit "ERROR" ++ [TAB] ++ lit "disk full" ].
Proof.
  apply (Log_sequence_lines sample_path sample_calls (sample_fs 1000));
    [ reflexivity | vm_compute; reflexivity | ].
  repeat constructor; evaluate.
Defined.

(** C2, as stated, fails: one successful call on a fresh path, with a
    message that holds a newline, leaves a file of two lines, the second of
    which is not in the record format. *)
Lemma Log_sequence_extra_line :
  nodes (sample_fs 1000) !! sample_path = None /\
  all_succeed sample_path [mk_call sample_env (lit "WARN") two_line_msg] (sample_fs 1000)
    = true /\
  lines (contents (final (Log_all sample_path
                            [mk_call sample_env (lit "WARN") two_line_msg]
                            (sample_fs 1000))) sample_path)
    = [ lit "[05-03-2024 14:02:31]" ++ [TAB] ++ lit "WARN" ++ [TAB] ++ lit "disk";
        lit "full" ].
Proof. evaluate. Qed.

(** C3 (amended).  When the directory part of the path is not an existing
    directory the file does not open: the call returns normally with the
    file system exactly as it was, and its stream is in a failed state, but
    the caller is handed the same thing as after a successful call, that
    is, no report of the failure. *)
Theorem Log_missing_directory e p level logMsg s d :
  parent p = Some d ->
  dir_exists s d = false ->
  Log e p level logMsg s = Returns tt s /\
  Log_succeeds e p level logMsg s = false /\
  (forall e' p' level' logMsg' s0,
     Log_succeeds e' p' level' logMsg' s0 = true ->
     seen_by_caller (Log e p level logMsg s)
       = seen_by_caller (Log e' p' level' logMsg' s0)).
Proof.
  intros Hp Hd. pose proof (missing_parent_open_fails _ _ _ Hp Hd) as Ho.
  destruct (Log_open_fails e p level logMsg _ Ho) as (Hfin & Hs).
  split; [rewrite Log_returns, Hfin; reflexivity|].
  split; [exact Hs|].
  intros. rewrite !Log_seen. reflexivity.
Qed.

Lemma Log_missing_directory_example :
  parent orphan_path = Some (wide "C:\missing") /\
  dir_exists (sample_fs 1000) (wide "C:\missing") = false /\
  Log sample_env orphan_path (lit "ERROR") (wide "disk full") (sample_fs 1000)
    = Returns tt (sample_fs 1000).
Proof.
  split; [reflexivity|]. split; [reflexivity|].
  apply (Log_missing_directory sample_env orphan_path (lit "ERROR") (wide "disk full")
           (sample_fs 1000) (wide "C:\missing")); reflexivity.
Defined.

(** C3, as stated, fails: the call on [C:\missing\app.log], whose directory
    does not exist, fails, the call on [C:\logs\app.log] succeeds, and the
    caller sees the same of both. *)
Lemma Log_missing_directory_unreported :
  parent orphan_path = Some (wide "C:\missing") /\
  dir_exists (sample_fs 1000) (wide "C:\missing") = false /\
  Log_succeeds sample_env orphan_path (lit "ERROR") (wide "disk full") (sample_fs 1000)
    = false /\
  Log_succeeds sample_env sample_path (lit "ERROR") (wide "disk full") (sample_fs 1000)
    = true /\
  seen_by_caller
    (Log sample_env orphan_path (lit "ERROR") (wide "disk full") (sample_fs 1000))
  = seen_by_caller
      (Log sample_env sample_path (lit "ERROR") (wide "disk full") (sample_fs 1000)).
Proof. repeat split; vm_compute; reflexivity. Qed.

(** C4 (amended).  In the "C" locale, and for a broken-down time in
    [localtime]'s ranges whose year has four digits, the timestamp is
    [[DD-MM-YYYY HH:MM:SS]]: day, month, year, hour of the 24-hour clock,
    minute and second of the local time, each two-digit field zero-padded;
    so it matches [[\d{2}-\d{2}-\d{4} \d{2}:\d{2}:\d{2}]]. *)
Theorem timestamp_C_locale_format e :
  lc_time e = C_locale ->
  tm_valid (clock e) ->
  1000 <= tm_year (clock e) + 1900 <= 9999 ->
  getCurrentDateTime e =
    lit "[" ++ dec2 (tm_mday (clock e)) ++ lit "-" ++ dec2 (tm_mon (clock e) + 1)
      ++ lit "-" ++ dec_of_Z (tm_year (clock e) + 1900) ++ lit " "
      ++ dec2 (tm_hour (clock e)) ++ lit ":" ++ dec2 (tm_min (clock e))
      ++ lit ":" ++ dec2 (tm_sec (clock e)) ++ lit "]" /\
  matches timestamp_pattern (getCurrentDateTime e) = true.
Proof.
  intros Hloc Htm Hy.
  pose proof (timestamp_C_expansion e Hloc Htm) as Heq.
  split; [exact Heq|].
  rewrite Heq. apply (shape_matches _ Htm Hy).
Qed.

Lemma timestamp_C_locale_format_example :
  getCurrentDateTime sample_env = lit "[05-03-2024 14:02:31]" /\
  matches timestamp_pattern (getCurrentDateTime sample_env) = true.
Proof.
  split; [reflexivity|].
  apply (timestamp_C_locale_format sample_env); evaluate.
Defined.

(** C4, as stated, fails: where the locale has a twelve-hour clock, [%X]
    prints the hour of that clock and a day-half marker, and the timestamp
    of 14:02:31 does not match the shape. *)
Lemma timestamp_twelve_hour_locale :
  tm_valid (clock sample_env_12h) /\
  getCurrentDateTime sample_env_12h = lit "[05-03-2024 02:02:31 PM]" /\
  matches timestamp_pattern (getCurrentDateTime sample_env_12h) = false.
Proof.
  evaluate.
Qed.

(** C5 (amended).  In a sane environment, when neither the level nor the
    narrowed message holds a tab or a newline, the line a successful call
    appends splits on the tab into exactly three fields: the timestamp, the
    level and the narrowed message, the last being the message itself when
    all its characters are below 256. *)
Theorem Log_three_fields e p level logMsg s :
  Log_succeeds e p level logMsg s = true ->
  env_sane e ->
  ~ In TAB (c_str level) -> ~ In NL (c_str level) ->
  ~ In TAB (string_of_range (wc_str logMsg)) ->
  ~ In NL (string_of_range (wc_str logMsg)) ->
  exists line,
    content (final (Log e p level logMsg s)) p = Some (contents s p ++ line ++ [NL]) /\
    lines (line ++ [NL]) = [line] /\
    split_on TAB line =
      [getCurrentDateTime e; c_str level; string_of_range (wc_str logMsg)] /\
    (Forall (fun c => (c < 256)%N) (wc_str logMsg) ->
     map N_of_ascii (string_of_range (wc_str logMsg)) = wc_str logMsg).
Proof.
  intros H Henv HlT HlN HmT HmN. exists (line_of (mk_call e level logMsg)).
  pose proof (record_of_line (mk_call e level logMsg)) as Hrec.
  cbn [c_env c_level c_msg] in Hrec.
  destruct (timestamp_plain e Henv) as [HtT HtN].
  split; [rewrite <- Hrec; exact (Log_success_content _ _ _ _ _ H)|].
  unfold line_of. cbn [c_env c_level c_msg].
  split; [|split].
  - rewrite (lines_terminated _ []); [reflexivity|].
    repeat apply not_in_app; try assumption; apply not_in_single; discriminate.
  - cbn [app]. rewrite (split_on_field TAB _ _ HtT), (split_on_field TAB _ _ HlT).
    rewrite (split_on_plain TAB _ HmT). reflexivity.
  - exact (narrow_range_identity (wc_str logMsg)).
Qed.

Lemma Log_three_fields_example :
  exists line,
    content (final (Log sample_env sample_path (lit "ERROR") (wide "disk full")
                      (sample_fs 1000))) sample_path
      = Some (contents (sample_fs 1000) sample_path ++ line ++ [NL]) /\
    lines (line ++ [NL]) = [line] /\
    split_on TAB line = [lit "[05-03-2024 14:02:31]"; lit "ERROR"; lit "disk full"] /\
    (Forall (fun c => (c < 256)%N) (wc_str (wide "disk full")) ->
     map N_of_ascii (string_of_range (wc_str (wide "disk full")))
       = wc_str (wide "disk full")).
Proof.
  apply (Log_three_fields sample_env sample_path (lit "ERROR") (wide "disk full")
           (sample_fs 1000)); evaluate.
Defined.

(** C5, as stated, fails: the one-character message U+0109 holds neither a
    tab nor a newline, but its low eight bits are the tab, and the line of
    the successful call splits into four fields. *)
Lemma Log_narrowed_tab_splits_field :
  ~ In 9%N (wc_str [265%N]) /\ ~ In 10%N (wc_str [265%N]) /\
  Log_succeeds sample_env sample_path (lit "INFO") [265%N] (sample_fs 1000) = true /\
  lines (contents (final (Log sample_env sample_path (lit "INFO") [265%N]
                            (sample_fs 1000))) sample_path)
    = [lit "[05-03-2024 14:02:31]" ++ [TAB] ++ lit "INFO" ++ [TAB] ++ [TAB]] /\
  split_on TAB (lit "[05-03-2024 14:02:31]" ++ [TAB] ++ lit "INFO" ++ [TAB] ++ [TAB])
    = [lit "[05-03-2024 14:02:31]"; lit "INFO"; []; []].
Proof. evaluate. Qed.

(** C6 (amended).  A successful call appends one record, which ends in a
    newline.  In a sane environment the record holds one newline more than
    the level and the narrowed message hold between them, so it is a single
    line exactly when they hold none. *)
Theorem Log_one_terminated_record e p level logMsg s :
  Log_succeeds e p level logMsg s = true ->
  env_sane e ->
  exists line,
    content (final (Log e p level logMsg s)) p = Some (contents s p ++ line ++ [NL]) /\
    count_occ ascii_dec (line ++ [NL]) NL =
      (1 + count_occ ascii_dec (c_str level) NL
         + count_occ ascii_dec (string_of_range (wc_str logMsg)) NL)%nat /\
    (~ In NL (c_str level) -> ~ In NL (string_of_range (wc_str logMsg)) ->
     lines (line ++ [NL]) = [line]).
Proof.
  intros H Henv. exists (line_of (mk_call e level logMsg)).
  pose proof (record_of_line (mk_call e level logMsg)) as Hrec.
  cbn [c_env c_level c_msg] in Hrec.
  destruct (timestamp_plain e Henv) as [_ Hts].
  split; [rewrite <- Hrec; exact (Log_success_content _ _ _ _ _ H)|].
  split.
  - rewrite <- Hrec. unfold record_of. rewrite !count_occ_app.
    rewrite (proj1 (count_occ_not_In ascii_dec _ _) Hts).
    change (count_occ ascii_dec [TAB] NL) with 0%nat.
    change (count_occ ascii_dec [NL] NL) with 1%nat. lia.
  - intros Hl Hm. rewrite (lines_terminated _ []); [reflexivity|].
    unfold line_of. cbn [c_env c_level c_msg].
    repeat apply not_in_app; try assumption; apply not_in_single; discriminate.
Qed.

Lemma Log_one_terminated_record_example :
  exists line,
    content (final (Log sample_env sample_path (lit "ERROR") (wide "disk full")
                      (sample_fs 1000))) sample_path
      = Some (contents (sample_fs 1000) sample_path ++ line ++ [NL]) /\
    count_occ ascii_dec (line ++ [NL]) NL =
      (1 + count_occ ascii_dec (c_str (lit "ERROR")) NL
         + count_occ ascii_dec (string_of_range (wc_str (wide "disk full"))) NL)%nat /\
    (~ In NL (c_str (lit "ERROR")) ->
     ~ In NL (string_of_range (wc_str (wide "disk full"))) ->
     lines (line ++ [NL]) = [line]).
Proof.
  apply (Log_one_terminated_record sample_env sample_path (lit "ERROR")
           (wide "disk full") (sample_fs 1000)); evaluate.
Defined.

(** C6, as stated, fails: a successful call whose message holds a newline
    appends two newline characters, that is, two lines. *)
Lemma Log_message_newline_two_lines :
  Log_succeeds sample_env sample_path (lit "ERROR") two_line_msg (sample_fs 1000) = true /\
  contents (sample_fs 1000) sample_path = [] /\
  content (final (Log sample_env sample_path (lit "ERROR") two_line_msg (sample_fs 1000)))
    sample_path
  = Some (lit "[05-03-2024 14:02:31]" ++ [TAB] ++ lit "ERROR" ++ [TAB]
            ++ lit "disk" ++ [NL] ++ lit "full" ++ [NL]) /\
  count_occ ascii_dec
    (lit "[05-03-2024 14:02:31]" ++ [TAB] ++ lit "ERROR" ++ [TAB]
       ++ lit "disk" ++ [NL] ++ lit "full" ++ [NL]) NL = 2%nat.
Proof. evaluate. Qed.

(** C7 (amended).  When a call fails it still returns normally, without an
    exception, and hands the caller what every other call does.  If the
    file did not open, the file system is unchanged.  If the write fell
    short, the file keeps its old content, followed by the part of
    the record the device had room for, which is never the whole record. *)
Theorem Log_failure_silent e p level logMsg s :
  Log_succeeds e p level logMsg s = false ->
  Log e p level logMsg s = Returns tt (final (Log e p level logMsg s)) /\
  (open_fails s p = true -> final (Log e p level logMsg s) = s) /\
  (open_fails s p = false ->
     (free s < length (record_of e level logMsg))%nat /\
     content (final (Log e p level logMsg s)) p =
       Some (contents s p ++ firstn (free s) (record_of e level logMsg))) /\
  (forall e' p' level' logMsg' s0,
     seen_by_caller (Log e p level logMsg s)
       = seen_by_caller (Log e' p' level' logMsg' s0)).
Proof.
  intros H. split; [apply Log_returns|].
  rewrite Log_succeeds_eq in H. unfold open_fails in *.
  destruct (os_open s p log_mode) as [s1|] eqn:Ho.
  - split; [discriminate|]. split.
    + intros _. cbn [negb andb] in H. apply Nat.leb_gt in H.
      split; [exact H|].
      destruct (Log_opened e p level logMsg _ _ Ho) as (_ & Hp & _).
      exact (content_file _ _ _ _ Hp).
    + intros. rewrite !Log_seen. reflexivity.
  - split; [intros _; apply (Log_open_fails e p level logMsg _ Ho)|].
    split; [discriminate|].
    intros. rewrite !Log_seen. reflexivity.
Qed.

Lemma Log_failure_silent_example :
  Log_succeeds sample_env sample_path (lit "ERROR") (wide "disk full") (sample_fs 5)
    = false /\
  Log sample_env sample_path (lit "ERROR") (wide "disk full") (sample_fs 5)
    = Returns tt
        (final (Log sample_env sample_path (lit "ERROR") (wide "disk full") (sample_fs 5))).
Proof.
  split; [vm_compute; reflexivity|].
  apply (Log_failure_silent sample_env sample_path (lit "ERROR") (wide "disk full")
           (sample_fs 5)).
  vm_compute; reflexivity.
Defined.

(** C7, as stated, fails: with room for 33 characters the write of the
    38-character record falls short and the call fails, yet the file has
    gained a complete line. *)
Lemma Log_write_failure_appends_line :
  Log_succeeds sample_env sample_path (lit "ERROR") two_line_msg (sample_fs 33) = false /\
  open_fails (sample_fs 33) sample_path = false /\
  contents (sample_fs 33) sample_path = [] /\
  content (final (Log sample_env sample_path (lit "ERROR") two_line_msg (sample_fs 33)))
    sample_path
  = Some (lit "[05-03-2024 14:02:31]" ++ [TAB] ++ lit "ERROR" ++ [TAB]
            ++ lit "disk" ++ [NL]).
Proof. repeat split; vm_compute; reflexivity. Qed.



(** C9.  The message is narrowed one character at a time, each to its low
    eight bits: a character below 256 keeps its value, none is dropped and
    none is rejected.  A successful call writes the narrowed message as the
    message field, which equals the message itself when all its characters
    are below 256; and whether a call succeeds depends on the length of the
    message only, not on which characters it holds. *)
Theorem Log_narrows_message e p level logMsg s :
  (forall c, N_of_ascii (narrow_char c) = (c mod 256)%N) /\
  (forall c, (c < 256)%N -> N_of_ascii (narrow_char c) = c) /\
  length (string_of_range (wc_str logMsg)) = length (wc_str logMsg) /\
  (Log_succeeds e p level logMsg s = true ->
     content (final (Log e p level logMsg s)) p =
       Some (contents s p ++ getCurrentDateTime e ++ [TAB] ++ c_str level ++ [TAB]
               ++ map narrow_char (wc_str logMsg) ++ [NL])) /\
  (Forall (fun c => (c < 256)%N) (wc_str logMsg) ->
     map N_of_ascii (map narrow_char (wc_str logMsg)) = wc_str logMsg) /\
  (forall logMsg',
     length (wc_str logMsg') = length (wc_str logMsg) ->
     Log_succeeds e p level logMsg' s = Log_succeeds e p level logMsg s).
Proof.
  split; [exact narrow_char_code|].
  split; [intros c Hc; rewrite narrow_char_code; apply N.mod_small, Hc|].
  split; [apply length_map|].
  split; [exact (Log_success_content e p level logMsg s)|].
  split; [exact (narrow_range_identity (wc_str logMsg))|].
  intros logMsg' Hlen. rewrite !Log_succeeds_eq. unfold record_of, string_of_range.
  repeat (rewrite !length_app || rewrite !length_map). rewrite Hlen. reflexivity.
Qed.

Lemma Log_narrows_message_example :
  content (final (Log sample_env sample_path (lit "INFO") [233%N; 8364%N]
                    (sample_fs 1000))) sample_path
  = Some (lit "[05-03-2024 14:02:31]" ++ [TAB] ++ lit "INFO" ++ [TAB]
            ++ [ascii_of_N 233; ascii_of_N 172] ++ [NL]).
Proof.
  apply (Log_narrows_message sample_env sample_path (lit "INFO") [233%N; 8364%N]
           (sample_fs 1000)).
  vm_compute; reflexivity.
Defined.

(** C10 (amended).  In a sane environment, that is, with a broken-down
    time in [localtime]'s ranges and a locale whose time representation is
    at most 58 characters, none a control character, the expansion of
    ["[%d-%m-%Y %X]"] and its terminator take fewer than 80 characters, so
    [strftime] stores the whole expansion and returns its length, and
    [getCurrentDateTime] returns that expansion. *)
Theorem getCurrentDateTime_fits e :
  env_sane e ->
  (length (expand (lc_time e) (lit "[%d-%m-%Y %X]") (clock e)) + 1 < 80)%nat /\
  strftime e (stack_junk e) 80 (lit "[%d-%m-%Y %X]") (clock e) =
    (length (expand (lc_time e) (lit "[%d-%m-%Y %X]") (clock e)),
     expand (lc_time e) (lit "[%d-%m-%Y %X]") (clock e)
       ++ NUL :: skipn (S (length (expand (lc_time e) (lit "[%d-%m-%Y %X]") (clock e))))
                   (stack_junk e)) /\
  getCurrentDateTime e = expand (lc_time e) (lit "[%d-%m-%Y %X]") (clock e).
Proof.
  intros H. destruct (timestamp_sane e H) as (Heq & Hlen & _).
  rewrite Heq in Hlen. split; [lia|]. split; [|exact Heq].
  unfold strftime.
  destruct (Nat.ltb_spec (length (expand (lc_time e) (lit "[%d-%m-%Y %X]") (clock e))) 80);
    [reflexivity | lia].
Qed.

Lemma getCurrentDateTime_fits_example :
  (length (expand C_locale (lit "[%d-%m-%Y %X]") sample_tm) + 1 < 80)%nat /\
  getCurrentDateTime sample_env_12h = lit "[05-03-2024 02:02:31 PM]".
Proof.
  split.
  - apply (getCurrentDateTime_fits sample_env). evaluate.
  - apply (getCurrentDateTime_fits sample_env_12h). evaluate.
Defined.

(** C10, as stated, fails: with a locale whose time representation takes
    75 characters the expansion has 88, [strftime] gives up and returns 0,
    and the string returned is not the formatted timestamp: it is what the
    library left in the array, read on past the 80 bytes of the array to
    the first NUL behind it. *)
Lemma getCurrentDateTime_overflows :
  tm_valid (clock sample_env_verbose) /\
  length (expand (lc_time sample_env_verbose) (lit "[%d-%m-%Y %X]")
            (clock sample_env_verbose)) = 88%nat /\
  fst (strftime sample_env_verbose (stack_junk sample_env_verbose) 80
         (lit "[%d-%m-%Y %X]") (clock sample_env_verbose)) = 0%nat /\
  length (getCurrentDateTime sample_env_verbose) = 81%nat /\
  getCurrentDateTime sample_env_verbose
    <> expand (lc_time sample_env_verbose) (lit "[%d-%m-%Y %X]")
         (clock sample_env_verbose).
Proof.
  split; [evaluate|]. split; [vm_compute; reflexivity|].
  split; [vm_compute; reflexivity|]. split; [vm_compute; reflexivity|].
  intros Heq. apply (f_equal (@length ascii)) in Heq.
  vm_compute in Heq. discriminate.
Qed.

(** * Edge behaviour *)

(** ** Terminators *)

Lemma wc_str_through pre : forall c post,
  ~ In 0%N pre -> c <> 0%N -> wc_str (pre ++ c :: post) = pre ++ c :: wc_str post.
Proof.
  induction pre as [|a pre IH]; intros c post Hpre Hc; cbn [app wc_str].
  - destruct (N.eqb_spec c 0); [contradiction | reflexivity].
  - destruct (N.eqb_spec a 0) as [->|_]; [exfalso; apply Hpre; left; reflexivity|].
    rewrite IH; [reflexivity | | exact Hc]. intros Hin. apply Hpre. right. exact Hin.
Qed.

(** What lies behind the first NUL of the level, or behind the first zero
    character of the message, is never read and never written. *)
Theorem Log_stops_at_terminators e p level logMsg tail wtail s :
  Log e p (level ++ NUL :: tail) (logMsg ++ 0%N :: wtail) s = Log e p level logMsg s.
Proof.
  unfold Log, Log_stream. rewrite c_str_cut, wc_str_cut. reflexivity.
Qed.

(** ** Narrowing *)

Lemma narrow_congruent w1 w2 :
  Forall2 (fun a b => (a mod 256 = b mod 256)%N) w1 w2 ->
  string_of_range w1 = string_of_range w2.
Proof.
  induction 1 as [|a b w1 w2 Hab _ IH]; cbn [string_of_range map]; [reflexivity|].
  fold (string_of_range w1) (string_of_range w2).
  unfold narrow_char. rewrite Hab, IH. reflexivity.
Qed.

(** Messages that agree character by character in their low eight bits are
    the same message to [Log]: the calls have the same effect. *)
Theorem Log_congruent_messages e p level m1 m2 s :
  Forall2 (fun a b => (a mod 256 = b mod 256)%N) (wc_str m1) (wc_str m2) ->
  Log e p level m1 s = Log e p level m2 s.
Proof.
  intros H. unfold Log, Log_stream. rewrite (narrow_congruent _ _ H). reflexivity.
Qed.

Lemma Log_congruent_messages_example :
  Log sample_env sample_path (lit "INFO") [321%N; 8364%N] (sample_fs 1000)
  = Log sample_env sample_path (lit "INFO") [65%N; 172%N] (sample_fs 1000).
Proof.
  apply (Log_congruent_messages sample_env sample_path (lit "INFO")
           [321%N; 8364%N] [65%N; 172%N] (sample_fs 1000)).
  repeat constructor.
Defined.

Lemma narrow_multiple_of_256 c : (c mod 256 = 0)%N -> narrow_char c = NUL.
Proof. intros H. unfold narrow_char. rewrite H. reflexivity. Qed.

(** A message character that is a non-zero multiple of 256 does not end the
    message: a successful call writes it as a NUL byte, followed by the rest
    of the message. *)
Theorem Log_writes_narrowed_NUL e p level pre c post s :
  ~ In 0%N pre -> c <> 0%N -> (c mod 256 = 0)%N ->
  Log_succeeds e p level (pre ++ c :: post) s = true ->
  content (final (Log e p level (pre ++ c :: post) s)) p =
    Some (contents s p ++ getCurrentDateTime e ++ [TAB] ++ c_str level ++ [TAB]
            ++ string_of_range pre ++ NUL :: string_of_range (wc_str post) ++ [NL]).
Proof.
  intros Hpre Hc Hmod H.
  rewrite (Log_success_content _ _ _ _ _ H). unfold record_of.
  rewrite (wc_str_through pre c post Hpre Hc).
  unfold string_of_range. rewrite map_app. cbn [map].
  rewrite (narrow_multiple_of_256 c Hmod), <- !app_assoc. reflexivity.
Qed.

Lemma Log_writes_narrowed_NUL_example :
  content (final (Log sample_env sample_path (lit "INFO") (wide "a" ++ 256%N :: wide "b")
                    (sample_fs 1000))) sample_path
  = Some (lit "[05-03-2024 14:02:31]" ++ [TAB] ++ lit "INFO" ++ [TAB]
            ++ lit "a" ++ NUL :: lit "b" ++ [NL]).
Proof.
  apply (Log_writes_narrowed_NUL sample_env sample_path (lit "INFO") (wide "a") 256%N
           (wide "b") (sample_fs 1000)); evaluate.
Defined.

(** ** The buffer of [getCurrentDateTime] *)




(** ** How much a call writes *)

Lemma matches_length pat : forall s, matches pat s = true -> length s = length pat.
Proof.
  induction pat as [|[|a] pat IH]; intros [|c s] H; cbn [matches length] in *;
    try discriminate; try reflexivity;
    apply andb_prop in H; destruct H as [_ H]; rewrite (IH _ H); reflexivity.
Qed.




(** ** A device without room *)

Lemma record_not_empty e level logMsg : (3 <= length (record_of e level logMsg))%nat.
Proof.
  unfold record_of. repeat (rewrite ?length_app; cbn [length]). lia.
Qed.

Lemma contents_frame s s' q :
  nodes s' !! q = nodes s !! q -> contents s' q = contents s q.
Proof. intros H. unfold contents, content. rewrite H. reflexivity. Qed.

(** On a device without room every call fails, whatever its arguments, and
    no file gains a character; the device stays without room. *)
Theorem Log_full_device e p level logMsg s :
  free s = 0%nat ->
  Log_succeeds e p level logMsg s = false /\
  (forall q, contents (final (Log e p level logMsg s)) q = contents s q) /\
  free (final (Log e p level logMsg s)) = 0%nat.
Proof.
  intros Hfull. pose proof (record_not_empty e level logMsg) as Hrec.
  destruct (os_open s p log_mode) as [s1|] eqn:Ho.
  - destruct (Log_opened e p level logMsg _ _ Ho) as (Hs & Hp & Hfree & Hframe).
    cbv zeta in *. rewrite Hfull in *.
    split; [rewrite Hs; apply Nat.leb_gt; lia|]. split; [|lia].
    intros q. destruct (decide (q = p)) as [->|Hq].
    + unfold contents at 1, content. rewrite Hp. cbn [firstn]. apply app_nil_r.
    + apply contents_frame, Hframe, Hq.
  - destruct (Log_open_fails e p level logMsg _ Ho) as (Hfin & Hs).
    rewrite Hfin. auto.
Qed.

Lemma Log_full_device_example :
  Log_succeeds sample_env sample_path (lit "ERROR") (wide "disk full") (sample_fs 0)
    = false /\
  (forall q, contents (final (Log sample_env sample_path (lit "ERROR") (wide "disk full")
                                (sample_fs 0))) q = contents (sample_fs 0) q) /\
  free (final (Log sample_env sample_path (lit "ERROR") (wide "disk full") (sample_fs 0)))
    = 0%nat.
Proof.
  apply (Log_full_device sample_env sample_path (lit "ERROR") (wide "disk full")
           (sample_fs 0)).
  reflexivity.
Defined.

(** The file is created when the stream is constructed, before anything is
    written: when the open of a path that names nothing succeeds, the file
    exists after the call whatever the room, holding the part of the record
    the device had room for, and so a failed call can leave an empty or a
    torn file behind. *)
Theorem Log_creates_before_writing e p level logMsg s :
  nodes s !! p = None ->
  open_fails s p = false ->
  nodes (final (Log e p level logMsg s)) !! p
  = Some (File false (firstn (free s) (record_of e level logMsg))).
Proof.
  intros Hp Hopen. unfold open_fails in Hopen.
  destruct (os_open s p log_mode) as [s1|] eqn:Ho; [|discriminate].
  destruct (Log_opened e p level logMsg _ _ Ho) as (_ & Hn & _).
  rewrite Hn. unfold contents, content. rewrite Hp. reflexivity.
Qed.

Lemma Log_creates_before_writing_example :
  Log_succeeds sample_env sample_path (lit "ERROR") (wide "disk full") (sample_fs 5)
    = false /\
  nodes (final (Log sample_env sample_path (lit "ERROR") (wide "disk full") (sample_fs 5)))
    !! sample_path = Some (File false (lit "[05-0")) /\
  nodes (final (Log sample_env sample_path (lit "ERROR") (wide "disk full") (sample_fs 0)))
    !! sample_path = Some (File false []).
Proof.
  split; [vm_compute; reflexivity|]. split.
  - apply (Log_creates_before_writing sample_env sample_path (lit "ERROR")
             (wide "disk full") (sample_fs 5)); evaluate.
  - apply (Log_creates_before_writing sample_env sample_path (lit "ERROR")
             (wide "disk full") (sample_fs 0)); evaluate.
Defined.

(** ** Reading the timestamp back *)

Lemma four_digits_list s :
  matches (dd ++ dd) s = true -> exists a b c d, s = [a; b; c; d].
Proof.
  intros H. apply matches_length in H.
  destruct s as [|a [|b [|c [|d [|x s]]]]]; try discriminate. eauto.
Qed.

Lemma field_dec2 z :
  0 <= z <= 99 -> field [digit (Z.to_N (z / 10)); digit (Z.to_N (z mod 10))] = z.
Proof.
  intros Hz. rewrite <- (dec2_two_digits z Hz). exact (number_of_dec2 z Hz).
Qed.

(** In the "C" locale and a four-digit year the timestamp can be read back:
    its six numbers are the day, the month counted from 1, the year, the
    hour, the minute and the second of the broken-down time. *)
Theorem timestamp_round_trip e :
  lc_time e = C_locale ->
  tm_valid (clock e) ->
  1000 <= tm_year (clock e) + 1900 <= 9999 ->
  parse_timestamp (getCurrentDateTime e)
  = Some {| st_day := tm_mday (clock e);
            st_month := tm_mon (clock e) + 1;
            st_year := tm_year (clock e) + 1900;
            st_hour := tm_hour (clock e);
            st_minute := tm_min (clock e);
            st_second := tm_sec (clock e) |}.
Proof.
  intros Hloc Htm Hy.
  pose proof (timestamp_C_expansion e Hloc Htm) as Heq.
  pose proof (shape_matches (clock e) Htm Hy) as Hm.
  rewrite <- Heq in Hm. unfold parse_timestamp. rewrite Hm, Heq.
  destruct (four_digits_list _ (dec_of_Z_year _ Hy)) as (a & b & c & d & Hy4).
  pose proof (number_of_dec_of_Z (tm_year (clock e) + 1900) ltac:(lia)) as Hyear.
  rewrite Hy4 in Hyear |- *.
  destruct Htm as (Hs & Hmi & Hh & Hd & Hmo & _).
  rewrite !dec2_two_digits by lia. cbn [lit list_ascii_of_string app].
  rewrite !field_dec2 by lia. fold (field [a; b; c; d]) in Hyear. rewrite Hyear.
  reflexivity.
Qed.

Lemma timestamp_round_trip_example :
  parse_timestamp (lit "[05-03-2024 14:02:31]")
  = Some {| st_day := 5; st_month := 3; st_year := 2024;
            st_hour := 14; st_minute := 2; st_second := 31 |}.
Proof.
  apply (timestamp_round_trip sample_env); evaluate.
Defined.
